(** * LiteFlowX, [liteflow/ops.py]: width fitting and masked softmax

    A shallow embedding of the four tensor operators of [liteflow/ops.py]
    ([trim], [pad], [fit], [softmax]) together with the part of the host
    framework they call ([tf.shape], [tf.slice], [tf.pad], [tf.cond],
    [tf.exp], broadcasting arithmetic, [tf.reduce_sum], [tf.nn.softmax]).

    Modelling decisions.
    - An array is its shape (a list of extents) and the element found at
      every multi-index ([tensor]).
    - The width-fitting operators build a graph and the graph is then run.
      A graph node ([node]) carries what is known of its shape while the
      graph is built ([static]) and what running it gives ([run]).  A call
      returns [Err] when building the graph raises; the node it returns
      otherwise may still raise when run.
    - [tf.cond] builds both branches, so a branch that is rejected while
      it is built makes the call raise even when it would not be selected;
      when the graph is run only the selected branch runs.
    - An operation checks, while it is built, what is known statically: the
      rank, and the values that are constants (a shape entry is a constant
      when the static shape has it).
    - The [width] argument is a Python integer ([Z]); where the code hands
      it to the framework it becomes a 32-bit integer with wrap-around
      ([int32]).  Extents are naturals; [tf.shape] reports them as 32-bit
      integers, and the statements that give the shape or the
      elements of a result are about arrays whose extents fit
      ([int32_shape]).
    - The softmax has no conditional; it is modelled on arrays, as the run
      of its graph.  [tf.reduce_sum] adds a row from left to right here;
      the framework may add in another order and its [tf.exp] need not
      round alike at every position, so the statements speak of the sum
      and of the exponentials that were computed and give no closed form
      for them.  [tf.nn.softmax] subtracts the largest logit of the row
      before it takes exponentials.  The [name] argument only labels
      nodes of the graph; nothing is stated about it.
    - The element type is a parameter ([Dtype], [FloatDtype]); the
      development instantiates it with [Z] (the integer examples of the
      docstrings) and with the binary64 floating-point numbers, the
      exponential being a parameter of that instance. *)

From Stdlib Require Import String List ZArith Lia Bool.
From Stdlib Require Import Floats.
Import ListNotations.

Local Open Scope Z_scope.

(** ** Results of framework calls *)

(** The operation of the framework that raised. *)
Inductive tf_op : Type :=
| OpStridedSlice
| OpSlice
| OpPad
| OpMul
| OpSub
| OpDiv
| OpSum
| OpMax.

Inductive tf_error : Type :=
| InvalidArgument (op : tf_op).

Inductive result (T : Type) : Type :=
| Ok (value : T)
| Err (e : tf_error).

Arguments Ok {T} value.
Arguments Err {T} e.

Definition bind {T U : Type} (c : result T) (k : T -> result U) : result U :=
  match c with
  | Ok v => k v
  | Err e => Err e
  end.

Notation "x <- c ;; k" := (bind c (fun x => k))
  (at level 61, c at next level, right associativity).

(** ** Element types *)

(** A numeric element type: [tf.pad] in CONSTANT mode fills with its zero. *)
Class Dtype (A : Type) : Type := { d_zero : A }.

(** A floating element type, with the arithmetic the softmax uses. *)
Class FloatDtype (A : Type) `{Dtype A} : Type := {
  d_add : A -> A -> A;
  d_sub : A -> A -> A;
  d_mul : A -> A -> A;
  d_div : A -> A -> A;
  d_max : A -> A -> A;
  d_exp : A -> A
}.

#[export] Instance Z_dtype : Dtype Z := {| d_zero := 0 |}.

#[export] Instance float_dtype : Dtype float := {| d_zero := 0%float |}.

(** Binary64 arithmetic is the kernel's; the exponential is a function of
    the C library and is left as a parameter. *)
Definition float_float (libm_exp : float -> float) : FloatDtype float := {|
  d_add := PrimFloat.add;
  d_sub := PrimFloat.sub;
  d_mul := PrimFloat.mul;
  d_div := PrimFloat.div;
  d_max := fun a b => if PrimFloat.ltb a b then b else a;
  d_exp := libm_exp
|}.

(** ** Tensors *)

Record tensor (A : Type) : Type := Tensor {
  shape : list nat;
  elem : list nat -> A
}.

Arguments Tensor {A} shape elem.
Arguments shape {A} t.
Arguments elem {A} t idx.

(** [idx] addresses an element of a tensor of shape [s]. *)
Definition in_range (s idx : list nat) : Prop := Forall2 lt idx s.

(** Two arrays hold the same numbers: same shape, same element at every
    index of that shape. *)
Definition same_values {A : Type} (t u : tensor A) : Prop :=
  shape t = shape u /\
  forall idx, in_range (shape t) idx -> elem t idx = elem u idx.

(** Row-major enumeration of the indices of a shape, and of the elements. *)
Fixpoint all_indices (s : list nat) : list (list nat) :=
  match s with
  | [] => [[]]
  | d :: s' =>
      flat_map (fun i => map (cons i) (all_indices s')) (seq 0 d)
  end.

Definition values {A : Type} (t : tensor A) : list A :=
  map (elem t) (all_indices (shape t)).

(** A rank-3 tensor from its nested-list literal. *)
Definition of_list3 {A : Type} `{Dtype A} (l : list (list (list A))) : tensor A :=
  Tensor [length l; length (hd [] l); length (hd [] (hd [] l))]
    (fun idx =>
       match idx with
       | [i; j; k] => nth k (nth j (nth i l []) []) d_zero
       | _ => d_zero
       end).

(** A rank-2 tensor from its nested-list literal. *)
Definition of_list2 {A : Type} `{Dtype A} (l : list (list A)) : tensor A :=
  Tensor [length l; length (hd [] l)]
    (fun idx =>
       match idx with
       | [i; k] => nth k (nth i l []) d_zero
       | _ => d_zero
       end).

(** ** The framework operations *)

(** [tf.shape(t)]: the dynamic shape, an integer vector. *)
Definition tf_shape {A : Type} (t : tensor A) : list Z :=
  map Z.of_nat (shape t).

(** [v[-1]] on an integer vector: its last entry; an empty vector has none. *)
Definition index_last (v : list Z) : result Z :=
  match rev v with
  | [] => Err (InvalidArgument OpStridedSlice)
  | d :: _ => Ok d
  end.

(** [v[:2]] on an integer vector. *)
Definition slice_to2 (v : list Z) : list Z := firstn 2 v.

(** [tf.concat(vs, axis=0)] on integer vectors. *)
Definition tf_concat (vs : list (list Z)) : list Z := concat vs.

(** The extents [tf.slice] produces: one [begin] and one [size] per axis,
    [0 <= begin <= begin + size <= extent], a size of [-1] standing for
    all the remaining elements of the axis. *)
Fixpoint slice_dims (dims : list nat) (begin size : list Z) : option (list nat) :=
  match dims, begin, size with
  | [], [], [] => Some []
  | d :: dims', b :: begin', s :: size' =>
      let s' := if s =? -1 then Z.of_nat d - b else s in
      if (0 <=? b) && (0 <=? s') && (b + s' <=? Z.of_nat d)
      then option_map (cons (Z.to_nat s')) (slice_dims dims' begin' size')
      else None
  | _, _, _ => None
  end.

Fixpoint offset_index (begin : list Z) (idx : list nat) : list nat :=
  match begin, idx with
  | b :: begin', i :: idx' => (Z.to_nat b + i)%nat :: offset_index begin' idx'
  | _, _ => []
  end.

(** [tf.slice(t, begin, size)]. *)
Definition tf_slice {A : Type} (t : tensor A) (begin size : list Z)
  : result (tensor A) :=
  match slice_dims (shape t) begin size with
  | Some dims => Ok (Tensor dims (fun idx => elem t (offset_index begin idx)))
  | None => Err (InvalidArgument OpSlice)
  end.

(** The extents [tf.pad] produces: one non-negative pair per axis. *)
Fixpoint pad_dims (dims : list nat) (paddings : list (Z * Z)) : option (list nat) :=
  match dims, paddings with
  | [], [] => Some []
  | d :: dims', (lo, hi) :: paddings' =>
      if (0 <=? lo) && (0 <=? hi)
      then option_map (cons (Z.to_nat lo + d + Z.to_nat hi)%nat)
             (pad_dims dims' paddings')
      else None
  | _, _ => None
  end.

(** The input index an output index of [tf.pad] copies, [None] in the
    padded area. *)
Fixpoint pad_source (dims : list nat) (paddings : list (Z * Z)) (idx : list nat)
  : option (list nat) :=
  match dims, paddings, idx with
  | [], [], [] => Some []
  | d :: dims', (lo, _) :: paddings', i :: idx' =>
      if (Z.to_nat lo <=? i)%nat && (i <? Z.to_nat lo + d)%nat
      then option_map (cons (i - Z.to_nat lo)%nat) (pad_source dims' paddings' idx')
      else None
  | _, _, _ => None
  end.

(** [tf.pad(t, paddings, "CONSTANT")]. *)
Definition tf_pad {A : Type} `{Dtype A} (t : tensor A) (paddings : list (Z * Z))
  : result (tensor A) :=
  match pad_dims (shape t) paddings with
  | Some dims =>
      Ok (Tensor dims
            (fun idx =>
               match pad_source (shape t) paddings idx with
               | Some src => elem t src
               | None => d_zero
               end))
  | None => Err (InvalidArgument OpPad)
  end.


(** ** Graph nodes *)

(** A 32-bit integer from a Python integer, with wrap-around. *)
Definition int32 (z : Z) : Z := (z + 2 ^ 31) mod 2 ^ 32 - 2 ^ 31.

(** What is known of a shape while the graph is built: nothing, or the
    rank with each extent known or not. *)
Definition static_shape : Type := option (list (option Z)).

(** A tensor of the graph: its static shape and what running it gives. *)
Record node (A : Type) : Type := Node {
  static : static_shape;
  run : result (tensor A)
}.

Arguments Node {A} static run.
Arguments static {A} n.
Arguments run {A} n.

(** [tf.constant(t)]: the shape is fully known when the graph is built. *)
Definition constant {A : Type} (t : tensor A) : node A :=
  Node (Some (map (fun d => Some (Z.of_nat d)) (shape t))) (Ok t).

(** [tf.placeholder(dtype)] fed with [t]: nothing is known of the shape
    when the graph is built. *)
Definition placeholder {A : Type} (t : tensor A) : node A := Node None (Ok t).

(** An integer scalar of the graph: its value when it is a constant of the
    graph, and its value when run. *)
Record scalar : Type := Scalar {
  known : option Z;
  value : result Z
}.

(** An integer vector of the graph: its length and entries as far as they
    are constants of the graph, and its value when run. *)
Record vector : Type := Vector {
  entries : option (list (option Z));
  vrun : result (list Z)
}.

Definition scalar_const (c : Z) : scalar := Scalar (Some c) (Ok c).

Definition vector_const (l : list Z) : vector := Vector (Some (map Some l)) (Ok l).

(** [tf.shape(n)] *)
Definition tf_shape_n {A : Type} (n : node A) : vector :=
  Vector (static n)
    (v <- run n ;; Ok (tf_shape v)).

(** [v[-1]]: rejected while the graph is built when the vector is known to
    be empty, when run otherwise. *)
Definition vector_last (v : vector) : result scalar :=
  match entries v with
  | Some [] => Err (InvalidArgument OpStridedSlice)
  | Some es => Ok (Scalar (last es None) (x <- vrun v ;; index_last x))
  | None => Ok (Scalar None (x <- vrun v ;; index_last x))
  end.

(** [v[:2]] *)
Definition vector_to2 (v : vector) : vector :=
  Vector (option_map (firstn 2) (entries v)) (x <- vrun v ;; Ok (slice_to2 x)).

(** [tf.concat([a, b], axis=0)] *)
Definition vector_concat (a b : vector) : vector :=
  Vector
    (match entries a, entries b with
     | Some x, Some y => Some (x ++ y)
     | _, _ => None
     end)
    (x <- vrun a ;; y <- vrun b ;; Ok (tf_concat [x; y])).

(** [c - s] in 32-bit arithmetic. *)
Definition scalar_rsub (c : Z) (s : scalar) : scalar :=
  Scalar (option_map (fun k => int32 (c - k)) (known s))
    (x <- value s ;; Ok (int32 (c - x))).

(** [tf.less_equal(s, c)], [tf.greater_equal(s, c)], [tf.greater(s, c)] and
    [tf.equal(s, c)]: booleans of the run. *)
Definition tf_less_equal (s : scalar) (c : Z) : result bool :=
  x <- value s ;; Ok (x <=? c).

Definition tf_greater_equal (s : scalar) (c : Z) : result bool :=
  x <- value s ;; Ok (x >=? c).

Definition tf_greater (s : scalar) (c : Z) : result bool :=
  x <- value s ;; Ok (x >? c).

Definition tf_equal (s : scalar) (c : Z) : result bool :=
  x <- value s ;; Ok (x =? c).

(** A static shape of unknown rank accepts any rank. *)
Definition rank_accepts (s : static_shape) (r : nat) : bool :=
  match s with
  | Some ds => (length ds =? r)%nat
  | None => true
  end.

Definition static_dims (s : static_shape) (r : nat) : list (option Z) :=
  match s with
  | Some ds => ds
  | None => repeat None r
  end.

(** The static extents of a slice: a size of -1 leaves what remains of the
    input's extent, any other known size is the extent. *)
Fixpoint slice_static_dims (ds : list (option Z)) (begin : list Z)
  (sizes : list (option Z)) : list (option Z) :=
  match ds, begin, sizes with
  | d :: ds', b :: begin', s :: sizes' =>
      match s with
      | Some z =>
          if z =? -1 then option_map (fun n => n - b) d else Some z
      | None => None
      end :: slice_static_dims ds' begin' sizes'
  | _, _, _ => []
  end.

(** [tf.slice(n, begin, size)] with a constant [begin].  While the graph
    is built the lengths of [begin] and [size] and the rank of [n] must
    agree as far as they are known, and a known size must not be below -1;
    the bounds are checked when the graph is run. *)
Definition tf_slice_n {A : Type} (n : node A) (begin : list Z) (size : vector)
  : result (node A) :=
  let lengths_agree :=
    match entries size with
    | Some ss => (length ss =? length begin)%nat
    | None => true
    end in
  let sizes_valid :=
    match entries size with
    | Some ss =>
        forallb (fun s => match s with Some z => -1 <=? z | None => true end) ss
    | None => true
    end in
  if lengths_agree && rank_accepts (static n) (length begin) && sizes_valid
  then
    Ok (Node
          (Some
             (match entries size with
              | Some ss =>
                  slice_static_dims (static_dims (static n) (length begin)) begin ss
              | None => repeat None (length begin)
              end))
          (v <- run n ;; sz <- vrun size ;; tf_slice v begin sz))
  else Err (InvalidArgument OpSlice).

(** The paddings as constants of the graph, when all of them are. *)
Fixpoint paddings_known (ps : list (scalar * scalar)) : option (list (Z * Z)) :=
  match ps with
  | [] => Some []
  | (lo, hi) :: ps' =>
      match known lo, known hi, paddings_known ps' with
      | Some a, Some b, Some r => Some ((a, b) :: r)
      | _, _, _ => None
      end
  end.

Fixpoint paddings_run (ps : list (scalar * scalar)) : result (list (Z * Z)) :=
  match ps with
  | [] => Ok []
  | (lo, hi) :: ps' =>
      a <- value lo ;; b <- value hi ;; r <- paddings_run ps' ;; Ok ((a, b) :: r)
  end.

Fixpoint pad_static_dims (ds : list (option Z)) (ps : list (Z * Z))
  : list (option Z) :=
  match ds, ps with
  | d :: ds', (lo, hi) :: ps' =>
      option_map (fun n => lo + n + hi) d
      :: pad_static_dims ds' ps'
  | _, _ => []
  end.

(** [tf.pad(n, paddings, "CONSTANT")].  While the graph is built the rank
    of [n], when known, must be the number of pairs, and paddings that are
    constants of the graph must not be negative. *)
Definition tf_pad_n {A : Type} `{Dtype A} (n : node A) (paddings : list (scalar * scalar))
  : result (node A) :=
  let non_negative :=
    match paddings_known paddings with
    | Some ps => forallb (fun p => (0 <=? fst p) && (0 <=? snd p)) ps
    | None => true
    end in
  if rank_accepts (static n) (length paddings) && non_negative
  then
    Ok (Node
          (Some
             (match paddings_known paddings with
              | Some ps => pad_static_dims (static_dims (static n) (length paddings)) ps
              | None => repeat None (length paddings)
              end))
          (v <- run n ;; ps <- paddings_run paddings ;; tf_pad v ps))
  else Err (InvalidArgument OpPad).

(** The static shape of the output of a conditional: what the two branches
    agree on. *)
Fixpoint merge_dims (a b : list (option Z)) : list (option Z) :=
  match a, b with
  | x :: a', y :: b' =>
      match x, y with
      | Some m, Some n => if m =? n then Some m else None
      | _, _ => None
      end :: merge_dims a' b'
  | _, _ => []
  end.

Definition merge_static (s1 s2 : static_shape) : static_shape :=
  match s1, s2 with
  | Some a, Some b =>
      if (length a =? length b)%nat then Some (merge_dims a b) else None
  | _, _ => None
  end.

(** [tf.cond(pred, true_fn, false_fn)]: both branches are built, the true
    one first; the selected one is run. *)
Definition tf_cond {A : Type} (pred : result bool)
  (true_fn false_fn : unit -> result (node A)) : result (node A) :=
  t <- true_fn tt ;;
  f <- false_fn tt ;;
  Ok (Node (merge_static (static t) (static f))
        (b <- pred ;; if (b : bool) then run t else run f)).

(** ** [ops.py]: the width-fitting family *)

Section Fitting.

Context {A : Type} `{Dtype A}.

(** [_trim(tensor, width)] *)
Definition _trim : node A -> Z -> result (node A) := fun tensor width =>
  let begin := [0; 0; 0] in
  let size :=
    vector_concat (vector_to2 (tf_shape_n tensor)) (vector_const [int32 width]) in
  tf_slice_n tensor begin size.

(** [trim(tensor, width)] *)
Definition trim : node A -> Z -> result (node A) := fun tensor width =>
  in_width <- vector_last (tf_shape_n tensor) ;;
  tf_cond (tf_less_equal in_width (int32 width))
    (fun _ => Ok tensor)
    (fun _ => _trim tensor width).

(** [_pad(tensor, width)] *)
Definition _pad : node A -> Z -> result (node A) := fun tensor width =>
  in_width <- vector_last (tf_shape_n tensor) ;;
  let diff := scalar_rsub (int32 width) in_width in
  let paddings :=
    [(scalar_const 0, scalar_const 0); (scalar_const 0, scalar_const 0);
     (scalar_const 0, diff)] in
  tf_pad_n tensor paddings.

(** [pad(tensor, width)] *)
Definition pad : node A -> Z -> result (node A) := fun tensor width =>
  in_width <- vector_last (tf_shape_n tensor) ;;
  tf_cond (tf_greater_equal in_width (int32 width))
    (fun _ => Ok tensor)
    (fun _ => _pad tensor width).

(** [_fit(tensor, width)] *)
Definition _fit : node A -> Z -> result (node A) := fun tensor width =>
  actual <- vector_last (tf_shape_n tensor) ;;
  tf_cond (tf_greater actual (int32 width))
    (fun _ => _trim tensor width)
    (fun _ => _pad tensor width).

(** [fit(tensor, width)] *)
Definition fit : node A -> Z -> result (node A) := fun tensor width =>
  actual <- vector_last (tf_shape_n tensor) ;;
  tf_cond (tf_equal actual (int32 width))
    (fun _ => Ok tensor)
    (fun _ => _fit tensor width).

End Fitting.

(** ** Broadcasting arithmetic and reductions *)

(** Two extents broadcast when they are equal or one of them is 1. *)
Definition broadcast_dim (d1 d2 : nat) : option nat :=
  if (d1 =? d2)%nat then Some d1
  else if (d1 =? 1)%nat then Some d2
  else if (d2 =? 1)%nat then Some d1
  else None.

(** Shapes broadcast from the last axis backwards; these two functions
    work on reversed shapes and indices (last axis first). *)
Fixpoint broadcast_rev (s1 s2 : list nat) : option (list nat) :=
  match s1, s2 with
  | [], s => Some s
  | s, [] => Some s
  | d1 :: r1, d2 :: r2 =>
      match broadcast_dim d1 d2, broadcast_rev r1 r2 with
      | Some d, Some r => Some (d :: r)
      | _, _ => None
      end
  end.

Fixpoint operand_index_rev (s idx : list nat) : list nat :=
  match s, idx with
  | d :: s', i :: idx' =>
      (if (d =? 1)%nat then O else i) :: operand_index_rev s' idx'
  | _, _ => []
  end.

Definition broadcast_shape (s1 s2 : list nat) : option (list nat) :=
  option_map (@rev nat) (broadcast_rev (rev s1) (rev s2)).

(** The index of the operand of shape [s] that the result index [idx]
    reads: leading axes the operand lacks are dropped, an axis of extent 1
    is read at 0. *)
Definition operand_index (s idx : list nat) : list nat :=
  rev (operand_index_rev (rev s) (rev idx)).

(** An elementwise binary operation with broadcasting. *)
Definition tf_binary {A : Type} (op : tf_op) (f : A -> A -> A) (a b : tensor A)
  : result (tensor A) :=
  match broadcast_shape (shape a) (shape b) with
  | Some s =>
      Ok (Tensor s
            (fun idx =>
               f (elem a (operand_index (shape a) idx))
                 (elem b (operand_index (shape b) idx))))
  | None => Err (InvalidArgument op)
  end.

(** A possibly negative axis, counted from the end when negative. *)
Definition normalize_axis (rank : nat) (axis : Z) : option nat :=
  let a := if axis <? 0 then axis + Z.of_nat rank else axis in
  if (0 <=? a) && (a <? Z.of_nat rank) then Some (Z.to_nat a) else None.

(** [idx] with entry [a] replaced by [k]. *)
Fixpoint set_axis (a k : nat) (idx : list nat) : list nat :=
  match idx, a with
  | [], _ => []
  | _ :: idx', O => k :: idx'
  | i :: idx', S a' => i :: set_axis a' k idx'
  end.

(** [idx] with [k] inserted before entry [a]. *)
Fixpoint insert_axis (a k : nat) (idx : list nat) : list nat :=
  match a, idx with
  | O, _ => k :: idx
  | S a', i :: idx' => i :: insert_axis a' k idx'
  | S _, [] => [k]
  end.

(** [s] without entry [a]. *)
Fixpoint remove_axis (a : nat) (s : list nat) : list nat :=
  match s, a with
  | [], _ => []
  | _ :: s', O => s'
  | d :: s', S a' => d :: remove_axis a' s'
  end.

Section FloatOps.

Context {A : Type} `{FloatDtype A}.

Definition sum_list (l : list A) : A := fold_left d_add l d_zero.

(** The sum [tf.reduce_sum] stores for the row [p] of a tensor whose last
    axis has extent [W]. *)
Definition row_sum (t : tensor A) (p : list nat) (W : nat) : A :=
  sum_list (map (fun j => elem t (p ++ [j])) (seq 0 W)).

(** [tf.exp(t)] *)
Definition tf_exp (t : tensor A) : tensor A :=
  Tensor (shape t) (fun idx => d_exp (elem t idx)).

(** [a * b] *)
Definition tf_mul (a b : tensor A) : result (tensor A) :=
  tf_binary OpMul d_mul a b.

(** [a / b] *)
Definition tf_div (a b : tensor A) : result (tensor A) :=
  tf_binary OpDiv d_div a b.

(** [tf.reduce_sum(t, axis=axis, keep_dims=keep_dims)] *)
Definition tf_reduce_sum (t : tensor A) (axis : Z) (keep_dims : bool)
  : result (tensor A) :=
  match normalize_axis (length (shape t)) axis with
  | Some a =>
      let extent := nth a (shape t) O in
      Ok (Tensor
            (if keep_dims then set_axis a 1 (shape t) else remove_axis a (shape t))
            (fun idx =>
               sum_list
                 (map (fun k =>
                         elem t (if keep_dims then set_axis a k idx
                                 else insert_axis a k idx))
                    (seq 0 extent))))
  | None => Err (InvalidArgument OpSum)
  end.

(** The largest element of a row, for [tf.reduce_max]. *)
Definition max_list (l : list A) : A :=
  match l with
  | [] => d_zero
  | x :: l' => fold_left d_max l' x
  end.

(** [tf.reduce_max(t, axis=axis, keep_dims=keep_dims)] *)
Definition tf_reduce_max (t : tensor A) (axis : Z) (keep_dims : bool)
  : result (tensor A) :=
  match normalize_axis (length (shape t)) axis with
  | Some a =>
      let extent := nth a (shape t) O in
      Ok (Tensor
            (if keep_dims then set_axis a 1 (shape t) else remove_axis a (shape t))
            (fun idx =>
               max_list
                 (map (fun k =>
                         elem t (if keep_dims then set_axis a k idx
                                 else insert_axis a k idx))
                    (seq 0 extent))))
  | None => Err (InvalidArgument OpMax)
  end.

(** [a - b] *)
Definition tf_sub (a b : tensor A) : result (tensor A) :=
  tf_binary OpSub d_sub a b.

(** [tf.nn.softmax(logits, dim, name)], as the framework computes it: the
    exponentials are taken after the largest logit along [dim] has been
    subtracted, [exp(logits - max) / sum(exp(logits - max))].  The name
    labels the node of the graph. *)
Definition tf_nn_softmax (logits : tensor A) (dim : Z) (name : string)
  : result (tensor A) :=
  maxes <- tf_reduce_max logits dim true ;;
  shifted <- tf_sub logits maxes ;;
  let exps := tf_exp shifted in
  sums <- tf_reduce_sum exps dim true ;;
  tf_div exps sums.

(** [with tf.variable_scope(name) as _: body]: the name prefixes the
    labels of the nodes created by [body]. *)
Definition tf_variable_scope {T : Type} (name : string) (body : unit -> T) : T :=
  body tt.

(** ** [ops.py]: the masked softmax *)

(** [softmax(logits, mask=None, name='softmax')] *)
Definition softmax
  : tensor A -> option (tensor A) -> string -> result (tensor A) :=
  fun logits mask name =>
  match mask with
  | None => tf_nn_softmax logits (-1) name
  | Some mask =>
      tf_variable_scope name (fun _ =>
        let exps := tf_exp logits in
        masked <- tf_mul exps mask ;;
        sums <- tf_reduce_sum masked (-1) true ;;
        tf_div masked sums)
  end.

End FloatOps.

(** ** Vocabulary of the statements *)

(** What a call on arrays returns, as shape and row-major elements. *)
Definition observe {A : Type} (r : result (tensor A)) : option (list nat * list A) :=
  match r with
  | Ok t => Some (shape t, values t)
  | Err _ => None
  end.

(** What a call of the width-fitting family gives: nothing when building
    the graph raises, else what running the node gives. *)
Definition observe_call {A : Type} (c : result (node A))
  : option (option (list nat * list A)) :=
  match c with
  | Ok n => Some (observe (run n))
  | Err _ => None
  end.

(** Two runs agree: both raise, or both return arrays holding the same
    numbers. *)
Definition same_result {A : Type} (r1 r2 : result (tensor A)) : Prop :=
  match r1, r2 with
  | Ok a, Ok b => same_values a b
  | Err _, Err _ => True
  | _, _ => False
  end.

(** Two calls agree: both raise while the graph is built, or both return
    nodes whose runs agree. *)
Definition same_call {A : Type} (c1 c2 : result (node A)) : Prop :=
  match c1, c2 with
  | Ok m, Ok n => same_result (run m) (run n)
  | Err _, Err _ => True
  | _, _ => False
  end.

(** The static shape of a node says nothing false of the array [v] the
    node runs to. *)
Definition dim_consistent (s : option Z) (d : nat) : Prop :=
  match s with
  | Some z => z = Z.of_nat d
  | None => True
  end.

Definition consistent {A : Type} (n : node A) (v : tensor A) : Prop :=
  match static n with
  | Some ds => Forall2 dim_consistent ds (shape v)
  | None => True
  end.

(** The extents fit the 32-bit integers in which [tf.shape] reports
    them. *)
Definition int32_shape (s : list nat) : bool :=
  forallb (fun d => Z.of_nat d <? 2 ^ 31) s.

(** The last extent as far as it is known while the graph is built. *)
Definition static_last {A : Type} (n : node A) : option Z :=
  match static n with
  | Some ds => last ds None
  | None => None
  end.

(** The static shape of a node that may be fitted: rank 3 when the rank is
    known, and no negative extent. *)
Definition static_wf {A : Type} (n : node A) : Prop :=
  match static n with
  | Some ds =>
      length ds = 3%nat /\
      Forall (fun d => match d with Some z => 0 <= z | None => True end) ds
  | None => True
  end.

(** Whether [_trim] and [_pad] are accepted while the graph is built, for
    a 32-bit width and the last extent as far as it is known. *)
Definition trim_builds (s : static_shape) (w32 : Z) : bool :=
  match s with
  | Some _ => -1 <=? w32
  | None => true
  end.

Definition pad_builds (last_known : option Z) (w32 : Z) : bool :=
  match last_known with
  | Some z => 0 <=? int32 (w32 - z)
  | None => true
  end.

(** What the graphs built by [trim], [pad] and [fit] compute when run on
    the array [u], for the 32-bit width [w32]. *)
Definition _trim_run {A : Type} (u : tensor A) (w32 : Z) : result (tensor A) :=
  tf_slice u [0; 0; 0] (tf_concat [slice_to2 (tf_shape u); [w32]]).

Definition _pad_run {A : Type} `{Dtype A} (u : tensor A) (w32 : Z) : result (tensor A) :=
  in_width <- index_last (tf_shape u) ;;
  tf_pad u [(0, 0); (0, 0); (0, int32 (w32 - in_width))].

Definition trim_run {A : Type} (u : tensor A) (w32 : Z) : result (tensor A) :=
  in_width <- index_last (tf_shape u) ;;
  if in_width <=? w32 then Ok u else _trim_run u w32.

Definition pad_run {A : Type} `{Dtype A} (u : tensor A) (w32 : Z) : result (tensor A) :=
  in_width <- index_last (tf_shape u) ;;
  if in_width >=? w32 then Ok u else _pad_run u w32.

Definition fit_run {A : Type} `{Dtype A} (u : tensor A) (w32 : Z) : result (tensor A) :=
  actual <- index_last (tf_shape u) ;;
  if actual =? w32 then Ok u
  else if actual >? w32 then _trim_run u w32 else _pad_run u w32.


(** A binary64 value that is a zero of either sign or not a number. *)
Definition zero_or_nan (x : float) : Prop :=
  (exists s, Prim2SF x = S754_zero s) \/ Prim2SF x = S754_nan.

(** ** Concrete inputs *)

(** The tensor of the docstrings. *)
Definition t_doc : tensor Z :=
  of_list3 [[[1; 1; 1]; [2; 2; 2]; [3; 3; 3]]; [[7; 7; 7]; [8; 8; 8]; [9; 9; 9]]].

Definition t_rank2 : tensor Z := of_list2 [[1; 2; 3]; [4; 5; 6]].

Definition logits_f : tensor float := of_list2 [[1; 2; 3]; [0; 0; 0]]%float.

Definition mask_f : tensor float := of_list2 [[1; 0; 1]; [0; 0; 0]]%float.






Definition mask_row_f : tensor float := Tensor [3%nat] (fun _ => 1%float).

(** A polynomial stand-in for the exponential of the C library, to run the
    binary64 instance on concrete inputs. *)
Definition exp_series (x : float) : float :=
  (1 + x * (1 + x / 2 * (1 + x / 3 * (1 + x / 4))))%float.


(** ** Tactics *)

Ltac zbool :=
  repeat match goal with
    | |- context [?a <=? ?b] => destruct (Z.leb_spec a b); try lia
    | |- context [?a <? ?b] => destruct (Z.ltb_spec a b); try lia
    | |- context [?a =? ?b] => destruct (Z.eqb_spec a b); try lia
    | |- context [?a >=? ?b] => rewrite (Z.geb_leb a b)
    | |- context [?a >? ?b] => rewrite (Z.gtb_ltb a b)
    end.

Ltac natbool :=
  repeat match goal with
    | |- context [(?a <=? ?b)%nat] => destruct (Nat.leb_spec a b); try lia
    | |- context [(?a <? ?b)%nat] => destruct (Nat.ltb_spec a b); try lia
    end.

(** * Properties *)

(** ** The docstring examples *)

Example trim_doc :
  observe_call (trim (constant t_doc) 2)
  = Some (Some ([2; 3; 2]%nat, [1; 1; 2; 2; 3; 3; 7; 7; 8; 8; 9; 9])).
Proof. reflexivity. Qed.

Example pad_doc :
  observe_call (pad (constant t_doc) 4)
  = Some (Some ([2; 3; 4]%nat,
                [1; 1; 1; 0; 2; 2; 2; 0; 3; 3; 3; 0; 7; 7; 7; 0; 8; 8; 8; 0;
                 9; 9; 9; 0])).
Proof. reflexivity. Qed.

Example fit_doc :
  observe_call (fit (constant t_doc) 3) = Some (observe (Ok t_doc)) /\
  observe_call (fit (placeholder t_doc) 2) = observe_call (trim (constant t_doc) 2) /\
  observe_call (fit (constant t_doc) 4) = observe_call (pad (constant t_doc) 4).
Proof. repeat split. Qed.

Example softmax_binary64_doc :
  option_map (fun r => map is_nan (snd r))
    (observe (@softmax float float_dtype (float_float exp_series)
                logits_f (Some mask_f) "softmax"%string))
  = Some [false; false; false; true; true; true].
Proof. vm_compute. reflexivity. Qed.

(** ** Indices, broadcasting and the last axis *)

Lemma in_range_length (s idx : list nat) :
  in_range s idx -> length idx = length s.
Proof. apply Forall2_length. Qed.

Lemma in_range_rev (s idx : list nat) :
  in_range s idx -> in_range (rev s) (rev idx).
Proof.
  unfold in_range. induction 1 as [|i d idx s Hid _ IH]; cbn [rev].
  - constructor.
  - apply Forall2_app; [exact IH | repeat constructor; exact Hid].
Qed.

Lemma in_range_snoc (pre p : list nat) (W k : nat) :
  in_range pre p -> (k < W)%nat -> in_range (pre ++ [W]) (p ++ [k]).
Proof.
  intros Hp Hk. apply Forall2_app; [exact Hp | repeat constructor; exact Hk].
Qed.

Lemma in_range_snoc_inv (pre : list nat) (W : nat) (idx : list nat) :
  in_range (pre ++ [W]) idx ->
  exists p k, idx = p ++ [k] /\ in_range pre p /\ (k < W)%nat.
Proof.
  intros Hr. apply Forall2_app_inv_r in Hr.
  destruct Hr as (p & q & Hp & Hq & ->).
  inversion Hq as [|k W' q' s' Hk Hnil]; subst.
  inversion Hnil; subst. exists p, k. auto.
Qed.

Lemma in_range1_inv (a : nat) (idx : list nat) :
  in_range [a] idx -> exists i, idx = [i] /\ (i < a)%nat.
Proof.
  intros Hr. inversion Hr as [|i a' r1 s1 Hi H1]; subst.
  inversion H1; subst. exists i. auto.
Qed.

Lemma in_range2_inv (a b : nat) (idx : list nat) :
  in_range [a; b] idx -> exists i k, idx = [i; k] /\ (i < a)%nat /\ (k < b)%nat.
Proof.
  intros Hr. inversion Hr as [|i a' r1 s1 Hi H1]; subst.
  apply in_range1_inv in H1. destruct H1 as (k & -> & Hk). exists i, k. auto.
Qed.

Lemma in_range3_inv (b l w : nat) (idx : list nat) :
  in_range [b; l; w] idx ->
  exists i j k, idx = [i; j; k] /\ (i < b)%nat /\ (j < l)%nat /\ (k < w)%nat.
Proof.
  intros Hr. inversion Hr as [|i b' r1 s1 Hi H1]; subst.
  apply in_range2_inv in H1. destruct H1 as (j & k & -> & Hj & Hk).
  exists i, j, k. auto.
Qed.

Lemma operand_index_rev_in_range (s idx : list nat) :
  in_range s idx -> operand_index_rev s idx = idx.
Proof.
  unfold in_range. induction 1 as [|i d idx s Hid _ IH]; cbn [operand_index_rev].
  - reflexivity.
  - rewrite IH. destruct (Nat.eqb_spec d 1); [f_equal; lia | reflexivity].
Qed.

Lemma operand_index_in_range (s idx : list nat) :
  in_range s idx -> operand_index s idx = idx.
Proof.
  intros Hr. unfold operand_index.
  rewrite (operand_index_rev_in_range _ _ (in_range_rev _ _ Hr)).
  apply rev_involutive.
Qed.

Lemma operand_index_keepdims (pre p : list nat) (k : nat) :
  in_range pre p -> operand_index (pre ++ [1%nat]) (p ++ [k]) = p ++ [O].
Proof.
  intros Hr. unfold operand_index. rewrite !rev_unit. cbn [operand_index_rev Nat.eqb].
  rewrite (operand_index_rev_in_range _ _ (in_range_rev _ _ Hr)).
  cbn [rev]. rewrite rev_involutive. reflexivity.
Qed.

Lemma broadcast_dim_same (d : nat) : broadcast_dim d d = Some d.
Proof. unfold broadcast_dim. rewrite Nat.eqb_refl. reflexivity. Qed.

Lemma broadcast_dim_one (d : nat) : broadcast_dim d 1 = Some d.
Proof.
  unfold broadcast_dim. destruct (Nat.eqb_spec d 1); [reflexivity|]. reflexivity.
Qed.

Lemma broadcast_rev_same (s : list nat) : broadcast_rev s s = Some s.
Proof.
  induction s as [|d s IH]; [reflexivity|].
  cbn [broadcast_rev]. rewrite broadcast_dim_same, IH. reflexivity.
Qed.

Lemma broadcast_shape_same (s : list nat) : broadcast_shape s s = Some s.
Proof.
  unfold broadcast_shape. rewrite broadcast_rev_same. cbn [option_map].
  rewrite rev_involutive. reflexivity.
Qed.

Lemma broadcast_shape_keepdims (pre : list nat) (W : nat) :
  broadcast_shape (pre ++ [W]) (pre ++ [1%nat]) = Some (pre ++ [W]).
Proof.
  unfold broadcast_shape. rewrite !rev_unit. cbn [broadcast_rev].
  rewrite broadcast_dim_one, broadcast_rev_same. cbn [option_map rev].
  rewrite rev_involutive. reflexivity.
Qed.

Lemma normalize_axis_last (pre : list nat) (W : nat) :
  normalize_axis (length (pre ++ [W])) (-1) = Some (length pre).
Proof.
  unfold normalize_axis. rewrite length_app. cbn [length Z.ltb Z.compare].
  zbool. cbn [andb]. f_equal. lia.
Qed.

Lemma set_axis_snoc (p : list nat) (i k : nat) :
  set_axis (length p) k (p ++ [i]) = p ++ [k].
Proof. induction p as [|x p IH]; cbn; [reflexivity | now rewrite IH]. Qed.

Lemma nth_snoc (pre : list nat) (W : nat) : nth (length pre) (pre ++ [W]) O = W.
Proof. rewrite app_nth2, Nat.sub_diag by lia. reflexivity. Qed.


(** ** 32-bit widths and static shapes *)

Lemma int32_small (z : Z) : - 2 ^ 31 <= z < 2 ^ 31 -> int32 z = z.
Proof. intros Hz. unfold int32. rewrite Z.mod_small; lia. Qed.

Lemma int32_range (z : Z) : - 2 ^ 31 <= int32 z < 2 ^ 31.
Proof.
  unfold int32. pose proof (Z.mod_pos_bound (z + 2 ^ 31) (2 ^ 32)). lia.
Qed.

Lemma bind_assoc {T U V : Type} (c : result T) (f : T -> result U)
  (g : U -> result V) :
  (y <- (x <- c ;; f x) ;; g y) = (x <- c ;; y <- f x ;; g y).
Proof. destruct c; reflexivity. Qed.

Section BuildFacts.

Context {A : Type} `{Dtype A}.

(** A node of unknown static shape, or of known rank 3. *)
Lemma static_wf_cases (m : node A) :
  static_wf m ->
  static m = None \/
  exists d0 d1 d2,
    static m = Some [d0; d1; d2] /\
    (forall z, d0 = Some z -> 0 <= z) /\
    (forall z, d1 = Some z -> 0 <= z) /\
    (forall z, d2 = Some z -> 0 <= z).
Proof.
  unfold static_wf. destruct (static m) as [ds|]; [|auto].
  intros [Hlen Hall]. right.
  destruct ds as [|d0 [|d1 [|d2 [|d3 ds]]]]; try discriminate.
  exists d0, d1, d2. split; [reflexivity|].
  inversion Hall as [|? ? H0 Hall1]; subst.
  inversion Hall1 as [|? ? H1 Hall2]; subst.
  inversion Hall2 as [|? ? H2 _]; subst.
  repeat split; intros z ->; assumption.
Qed.

Lemma vector_last_node (m : node A) :
  static_wf m ->
  vector_last (tf_shape_n m)
  = Ok (Scalar (static_last m) (u <- run m ;; index_last (tf_shape u))).
Proof.
  intros Hwf. unfold vector_last, tf_shape_n, static_last. cbn [entries vrun].
  rewrite bind_assoc. cbn [bind].
  destruct (static_wf_cases m Hwf) as [-> | (d0 & d1 & d2 & -> & _)]; reflexivity.
Qed.

Lemma known_dim_size (d : option Z) :
  (forall z, d = Some z -> 0 <= z) ->
  match d with Some z => -1 <=? z | None => true end = true.
Proof.
  intros Hd. destruct d as [z|]; [|reflexivity].
  specialize (Hd z eq_refl). apply Z.leb_le. lia.
Qed.

(** [_trim] is accepted unless the size vector is a constant of the graph
    and the 32-bit width is below -1. *)
Lemma _trim_node (m : node A) (width : Z) :
  static_wf m ->
  if trim_builds (static m) (int32 width)
  then exists out,
         _trim m width = Ok out /\
         run out = (u <- run m ;; _trim_run u (int32 width)) /\
         (static m = None -> static out = Some [None; None; None]) /\
         (forall d0 d1 d2, static m = Some [d0; d1; d2] ->
            static out
            = Some [d0; d1;
                    if int32 width =? -1 then option_map (fun z => z - 0) d2
                    else Some (int32 width)])
  else _trim m width = Err (InvalidArgument OpSlice).
Proof.
  intros Hwf. unfold trim_builds, _trim, tf_slice_n, _trim_run.
  cbn [vector_concat vector_to2 vector_const tf_shape_n entries vrun map length].
  destruct (static_wf_cases m Hwf)
    as [Hs | (d0 & d1 & d2 & Hs & H0 & H1 & H2)]; rewrite Hs.
  - cbn [option_map rank_accepts andb static_dims].
    eexists. split; [reflexivity|]. split.
    + cbn [run]. destruct (run m); reflexivity.
    + split; [reflexivity | discriminate].
  - cbn [option_map firstn app length Nat.eqb rank_accepts andb forallb].
    rewrite (known_dim_size d0 H0), (known_dim_size d1 H1). cbn [andb].
    rewrite andb_true_r.
    destruct (Z.leb_spec (-1) (int32 width)); [|reflexivity].
    eexists. split; [reflexivity|]. split.
    + cbn [run]. destruct (run m); reflexivity.
    + split; [discriminate|]. intros e0 e1 e2 [= <- <- <-].
      cbn [static static_dims slice_static_dims]. f_equal. f_equal.
      * destruct d0 as [z|]; [|reflexivity].
        destruct (Z.eqb_spec z (-1)); [|reflexivity].
        specialize (H0 z eq_refl). lia.
      * f_equal. destruct d1 as [z|]; [|reflexivity].
        destruct (Z.eqb_spec z (-1)); [|reflexivity].
        specialize (H1 z eq_refl). lia.
Qed.

(** [_pad] is accepted unless the last extent is a constant of the graph
    and the 32-bit difference is negative. *)
Lemma _pad_node (m : node A) (width : Z) :
  static_wf m ->
  if pad_builds (static_last m) (int32 width)
  then exists out,
         _pad m width = Ok out /\
         run out = (u <- run m ;; _pad_run u (int32 width)) /\
         (static_last m = None -> static out = Some [None; None; None]) /\
         (forall d0 d1 z, static m = Some [d0; d1; Some z] ->
            static out
            = Some [option_map (fun n => 0 + n + 0) d0;
                    option_map (fun n => 0 + n + 0) d1;
                    Some (0 + z + int32 (int32 width - z))])
  else _pad m width = Err (InvalidArgument OpPad).
Proof.
  intros Hwf. unfold _pad. rewrite (vector_last_node m Hwf). cbn [bind].
  unfold pad_builds, tf_pad_n, _pad_run.
  cbn [paddings_known scalar_rsub scalar_const known value length].
  destruct (static_last m) as [z|] eqn:Hl; cbn [option_map].
  - assert (Hs : exists d0 d1, static m = Some [d0; d1; Some z]).
    { unfold static_last in Hl.
      destruct (static_wf_cases m Hwf) as [Hs | (d0 & d1 & d2 & Hs & _)];
        rewrite Hs in Hl; [discriminate|].
      cbn in Hl. subst d2. eauto. }
    destruct Hs as (d0 & d1 & Hs). rewrite Hs.
    cbn [rank_accepts length Nat.eqb andb forallb fst snd Z.leb Z.compare].
    rewrite andb_true_r.
    destruct (Z.leb_spec 0 (int32 (int32 width - z))); [|reflexivity].
    eexists. split; [reflexivity|]. split.
    + cbn [run paddings_run scalar_rsub scalar_const value bind].
      destruct (run m) as [u|e]; [|reflexivity]. cbn [bind].
      destruct (index_last (tf_shape u)); reflexivity.
    + split; [discriminate|]. intros e0 e1 z' [= <- <- <-]. reflexivity.
  - assert (Hr : rank_accepts (static m) 3 = true).
    { destruct (static_wf_cases m Hwf) as [Hs | (d0 & d1 & d2 & Hs & _)];
        rewrite Hs; reflexivity. }
    rewrite Hr. cbn [andb].
    eexists. split; [reflexivity|]. split.
    + cbn [run paddings_run scalar_rsub scalar_const value bind].
      destruct (run m) as [u|e]; [|reflexivity]. cbn [bind].
      destruct (index_last (tf_shape u)); reflexivity.
    + split; [reflexivity|]. intros d0 d1 z Hs.
      unfold static_last in Hl. rewrite Hs in Hl. discriminate.
Qed.


Lemma trim_node (m : node A) (width : Z) :
  static_wf m ->
  if trim_builds (static m) (int32 width)
  then exists out,
         trim m width = Ok out /\
         run out = (u <- run m ;; trim_run u (int32 width))
  else trim m width = Err (InvalidArgument OpSlice).
Proof.
  intros Hwf. unfold trim. rewrite (vector_last_node m Hwf). cbn [bind].
  unfold tf_cond. cbn [bind].
  pose proof (_trim_node m width Hwf) as Ht.
  destruct (trim_builds (static m) (int32 width)).
  - destruct Ht as (tout & -> & Hrun & _). cbn [bind].
    eexists. split; [reflexivity|]. cbn [run]. rewrite Hrun.
    unfold tf_less_equal, trim_run. cbn [value].
    destruct (run m) as [u|e]; [|reflexivity]. cbn [bind].
    destruct (index_last (tf_shape u)) as [x|e]; [|reflexivity]. cbn [bind].
    destruct (x <=? int32 width); reflexivity.
  - rewrite Ht. reflexivity.
Qed.

Lemma pad_node (m : node A) (width : Z) :
  static_wf m ->
  if pad_builds (static_last m) (int32 width)
  then exists out,
         pad m width = Ok out /\
         run out = (u <- run m ;; pad_run u (int32 width))
  else pad m width = Err (InvalidArgument OpPad).
Proof.
  intros Hwf. unfold pad. rewrite (vector_last_node m Hwf). cbn [bind].
  unfold tf_cond. cbn [bind].
  pose proof (_pad_node m width Hwf) as Hp.
  destruct (pad_builds (static_last m) (int32 width)).
  - destruct Hp as (pout & -> & Hrun & _). cbn [bind].
    eexists. split; [reflexivity|]. cbn [run]. rewrite Hrun.
    unfold tf_greater_equal, pad_run. cbn [value].
    destruct (run m) as [u|e]; [|reflexivity]. cbn [bind].
    destruct (index_last (tf_shape u)) as [x|e]; [|reflexivity]. cbn [bind].
    destruct (x >=? int32 width); reflexivity.
  - rewrite Hp. reflexivity.
Qed.

Lemma merge_dim_some (x y : option Z) (z : Z) :
  match x, y with
  | Some m, Some n => if m =? n then Some m else None
  | _, _ => None
  end = Some z -> x = Some z /\ y = Some z.
Proof.
  destruct x as [m|], y as [n|]; try discriminate.
  destruct (Z.eqb_spec m n); [|discriminate]. intros [= <-]. subst. auto.
Qed.

(** [fit] is accepted when both [_trim] and [_pad] are; its output keeps
    a static last extent only when the input has that very extent. *)
Lemma fit_node (m : node A) (width : Z) :
  static_wf m ->
  if trim_builds (static m) (int32 width)
  then if pad_builds (static_last m) (int32 width)
       then exists out,
              fit m width = Ok out /\
              run out = (u <- run m ;; fit_run u (int32 width)) /\
              static_wf out /\
              (static m = None -> static out = None) /\
              (forall x, static_last out = Some x -> static_last m = Some x)
       else fit m width = Err (InvalidArgument OpPad)
  else fit m width = Err (InvalidArgument OpSlice).
Proof.
  intros Hwf. unfold fit, _fit. rewrite (vector_last_node m Hwf). cbn [bind].
  unfold tf_cond. cbn [bind].
  pose proof (_trim_node m width Hwf) as Ht.
  pose proof (_pad_node m width Hwf) as Hp.
  destruct (trim_builds (static m) (int32 width)); [|rewrite Ht; reflexivity].
  destruct Ht as (tout & -> & Htrun & Htn & Hts). cbn [bind].
  destruct (pad_builds (static_last m) (int32 width)); [|rewrite Hp; reflexivity].
  destruct Hp as (pout & -> & Hprun & Hpn & Hps). cbn [bind].
  eexists. split; [reflexivity|]. cbn [run static]. split; [|split; [|split]].
  - rewrite Htrun, Hprun. unfold tf_equal, tf_greater, fit_run. cbn [value].
    destruct (run m) as [u|e]; [|reflexivity]. cbn [bind].
    destruct (index_last (tf_shape u)) as [x|e]; [|reflexivity]. cbn [bind].
    destruct (x =? int32 width); [reflexivity|].
    destruct (x >? int32 width); reflexivity.
  - unfold static_wf. cbn [static].
    destruct (static_wf_cases m Hwf)
      as [Hs | (d0 & d1 & d2 & Hs & H0 & H1 & H2)]; rewrite Hs.
    + exact I.
    + rewrite (Hts d0 d1 d2 Hs).
      assert (Hpl : exists p0 p1 p2, static pout = Some [p0; p1; p2]).
      { destruct d2 as [z|].
        - rewrite (Hps d0 d1 z Hs). eauto.
        - rewrite Hpn by (unfold static_last; rewrite Hs; reflexivity). eauto. }
      destruct Hpl as (p0 & p1 & p2 & ->).
      cbn [merge_static merge_dims length Nat.eqb]. split; [reflexivity|].
      repeat constructor.
      * destruct d0 as [z|]; [|exact I].
        destruct p0 as [y|]; [|exact I].
        destruct (z =? y); [|exact I].
        destruct (z =? z); [apply H0; reflexivity | exact I].
      * destruct d1 as [z|]; [|exact I].
        destruct p1 as [y|]; [|exact I].
        destruct (z =? y); [|exact I].
        destruct (z =? z); [apply H1; reflexivity | exact I].
      * match goal with |- match ?e with _ => _ end =>
          destruct e as [z|] eqn:He; [|exact I] end.
        apply merge_dim_some in He. destruct He as [He _].
        apply H2. exact He.
  - intros Hs. rewrite Hs. reflexivity.
  - intros x. unfold static_last. cbn [static].
    destruct (static_wf_cases m Hwf)
      as [Hs | (d0 & d1 & d2 & Hs & H0 & H1 & H2)]; rewrite Hs.
    + discriminate.
    + rewrite (Hts d0 d1 d2 Hs).
      assert (Hpl : exists p0 p1 p2, static pout = Some [p0; p1; p2]).
      { destruct d2 as [z|].
        - rewrite (Hps d0 d1 z Hs). eauto.
        - rewrite Hpn by (unfold static_last; rewrite Hs; reflexivity). eauto. }
      destruct Hpl as (p0 & p1 & p2 & ->).
      cbn [merge_static merge_dims length Nat.eqb last].
      intros He. apply merge_dim_some in He. destruct He as [He _].
      cbn [last]. exact He.
Qed.

End BuildFacts.

(** ** What the graphs compute on rank-3 arrays *)

Section RunFacts.

Context {A : Type} `{Dtype A}.

Lemma index_last_rank3 (t : tensor A) (b l w : nat) :
  shape t = [b; l; w] -> index_last (tf_shape t) = Ok (Z.of_nat w).
Proof. intros Hs. unfold index_last, tf_shape. rewrite Hs. reflexivity. Qed.

Lemma slice_dims_trim (b l w : nat) (width : Z) :
  0 <= width <= Z.of_nat w ->
  slice_dims [b; l; w] [0; 0; 0] [Z.of_nat b; Z.of_nat l; width]
  = Some [b; l; Z.to_nat width].
Proof.
  intros Hw. cbn [slice_dims]. zbool. cbn [andb option_map].
  rewrite !Nat2Z.id. reflexivity.
Qed.

Lemma _trim_run_rank3 (t : tensor A) (b l w : nat) (w32 : Z) :
  shape t = [b; l; w] -> 0 <= w32 <= Z.of_nat w ->
  _trim_run t w32
  = Ok (Tensor [b; l; Z.to_nat w32]
          (fun idx => elem t (offset_index [0; 0; 0] idx))).
Proof.
  intros Hs Hw. unfold _trim_run, tf_slice, tf_concat, slice_to2, tf_shape.
  rewrite Hs. cbn [map firstn concat app].
  rewrite slice_dims_trim by exact Hw. reflexivity.
Qed.

Lemma pad_dims_pad (b l w : nat) (diff : Z) :
  0 <= diff ->
  pad_dims [b; l; w] [(0, 0); (0, 0); (0, diff)]
  = Some [b; l; (w + Z.to_nat diff)%nat].
Proof.
  intros Hd. cbn [pad_dims]. zbool. cbn [andb option_map Z.to_nat Nat.add].
  rewrite !Nat.add_0_r. reflexivity.
Qed.

Lemma _pad_run_rank3 (t : tensor A) (b l w : nat) (w32 : Z) :
  shape t = [b; l; w] -> Z.of_nat w <= w32 < 2 ^ 31 ->
  _pad_run t w32
  = Ok (Tensor [b; l; Z.to_nat w32]
          (fun idx =>
             match pad_source [b; l; w]
                     [(0, 0); (0, 0); (0, w32 - Z.of_nat w)] idx with
             | Some src => elem t src
             | None => d_zero
             end)).
Proof.
  intros Hs Hw. unfold _pad_run. rewrite (index_last_rank3 t b l w Hs).
  cbn [bind]. rewrite int32_small by lia. unfold tf_pad. rewrite Hs.
  rewrite pad_dims_pad by lia.
  replace (w + Z.to_nat (w32 - Z.of_nat w))%nat with (Z.to_nat w32) by lia.
  reflexivity.
Qed.

Lemma pad_source_inside (b l w i j k : nat) (diff : Z) :
  (i < b)%nat -> (j < l)%nat -> (k < w)%nat ->
  pad_source [b; l; w] [(0, 0); (0, 0); (0, diff)] [i; j; k] = Some [i; j; k].
Proof.
  intros Hi Hj Hk. cbn [pad_source Z.to_nat Nat.add]. natbool.
  cbn [andb option_map]. rewrite !Nat.sub_0_r. reflexivity.
Qed.

Lemma pad_source_outside (b l w i j k : nat) (diff : Z) :
  (w <= k)%nat ->
  pad_source [b; l; w] [(0, 0); (0, 0); (0, diff)] [i; j; k] = None.
Proof.
  intros Hk. cbn [pad_source Z.to_nat Nat.add].
  destruct (_ && _); cbn [option_map]; [|reflexivity].
  destruct (_ && _); cbn [option_map]; [|reflexivity].
  destruct (Nat.ltb_spec k w); try lia. rewrite andb_false_r. reflexivity.
Qed.

Lemma same_result_refl (r : result (tensor A)) : same_result r r.
Proof. destruct r as [t|e]; cbn [same_result]; [|exact I]. split; auto. Qed.

(** A static shape that says nothing false of a rank-3 array may be
    fitted, and its last extent is unknown or the array's. *)
Lemma consistent_wf (n : node A) (v : tensor A) (b l w : nat) :
  consistent n v -> shape v = [b; l; w] ->
  static_wf n /\ (static_last n = None \/ static_last n = Some (Z.of_nat w)).
Proof.
  unfold consistent, static_wf, static_last. intros Hc Hs. rewrite Hs in Hc.
  destruct (static n) as [ds|]; [|auto].
  inversion Hc as [|d0 ? r0 ? H0 Hc1]; subst.
  inversion Hc1 as [|d1 ? r1 ? H1 Hc2]; subst.
  inversion Hc2 as [|d2 ? r2 ? H2 Hc3]; subst.
  inversion Hc3; subst. split.
  - split; [reflexivity|].
    repeat constructor;
      match goal with |- match ?d with _ => _ end =>
        destruct d; [|exact I] end;
      cbn [dim_consistent] in *; lia.
  - cbn [last]. destruct d2 as [z|]; [right | left; reflexivity].
    cbn [dim_consistent] in H2. congruence.
Qed.

(** The graphs on a rank-3 array and a non-negative 32-bit width. *)
Lemma trim_run_rank3 (t : tensor A) (b l w : nat) (w32 : Z) :
  shape t = [b; l; w] ->
  trim_run t w32 = if Z.of_nat w <=? w32 then Ok t else _trim_run t w32.
Proof.
  intros Hs. unfold trim_run. rewrite (index_last_rank3 t b l w Hs). reflexivity.
Qed.

Lemma pad_run_rank3 (t : tensor A) (b l w : nat) (w32 : Z) :
  shape t = [b; l; w] ->
  pad_run t w32 = if Z.of_nat w >=? w32 then Ok t else _pad_run t w32.
Proof.
  intros Hs. unfold pad_run. rewrite (index_last_rank3 t b l w Hs). reflexivity.
Qed.

Lemma fit_run_rank3 (t : tensor A) (b l w : nat) (w32 : Z) :
  shape t = [b; l; w] ->
  fit_run t w32
  = if Z.of_nat w =? w32 then Ok t
    else if Z.of_nat w >? w32 then _trim_run t w32 else _pad_run t w32.
Proof.
  intros Hs. unfold fit_run. rewrite (index_last_rank3 t b l w Hs). reflexivity.
Qed.


End RunFacts.

(** ** The width-fitting family *)

Section FittingTheorems.

Context {A : Type} `{Dtype A}.

Lemma pad_builds_consistent (n : node A) (v : tensor A) (b l w : nat) (width : Z) :
  consistent n v -> shape v = [b; l; w] -> 0 <= width < 2 ^ 31 ->
  static_last n = None \/ Z.of_nat w <= width ->
  pad_builds (static_last n) width = true.
Proof.
  intros Hc Hs Hw Hb. unfold pad_builds.
  destruct (consistent_wf n v b l w Hc Hs) as [_ [-> | Hl]]; [reflexivity|].
  rewrite Hl. destruct Hb as [Hb | Hb]; [congruence|].
  apply Z.leb_le. rewrite int32_small; lia.
Qed.

Lemma trim_builds_nonneg (s : static_shape) (w32 : Z) :
  0 <= w32 -> trim_builds s w32 = true.
Proof.
  intros Hw. unfold trim_builds. destruct s; [|reflexivity]. apply Z.leb_le. lia.
Qed.











End FittingTheorems.

(** The statements above at the tensor of the docstrings, as a constant
    of the graph and as a placeholder. *)

Lemma consistent_constant {A : Type} (t : tensor A) : consistent (constant t) t.
Proof.
  unfold consistent, constant. cbn [static].
  induction (shape t) as [|d s IH]; constructor; [reflexivity | exact IH].
Qed.






(** ** More on the width-fitting family *)


Lemma int32_shape_rank3 (b l w : nat) :
  int32_shape [b; l; w] = true -> Z.of_nat w < 2 ^ 31.
Proof.
  unfold int32_shape. cbn [forallb]. rewrite andb_true_r.
  intros Hb. apply andb_prop in Hb. destruct Hb as [_ Hb].
  apply andb_prop in Hb. destruct Hb as [_ Hb]. apply Z.ltb_lt. exact Hb.
Qed.

Section FittingMore.

Context {A : Type} `{Dtype A}.

(** What [_fit] builds and what its graph computes. *)
Lemma _fit_node (m : node A) (width : Z) :
  static_wf m ->
  if trim_builds (static m) (int32 width)
  then if pad_builds (static_last m) (int32 width)
       then exists out,
              _fit m width = Ok out /\
              run out
              = (u <- run m ;;
                 actual <- index_last (tf_shape u) ;;
                 if actual >? int32 width then _trim_run u (int32 width)
                 else _pad_run u (int32 width))
       else _fit m width = Err (InvalidArgument OpPad)
  else _fit m width = Err (InvalidArgument OpSlice).
Proof.
  intros Hwf. unfold _fit. rewrite (vector_last_node m Hwf). cbn [bind].
  unfold tf_cond.
  pose proof (_trim_node m width Hwf) as Ht.
  pose proof (_pad_node m width Hwf) as Hp.
  destruct (trim_builds (static m) (int32 width)); [|rewrite Ht; reflexivity].
  destruct Ht as (tout & -> & Htrun & _). cbn [bind].
  destruct (pad_builds (static_last m) (int32 width)); [|rewrite Hp; reflexivity].
  destruct Hp as (pout & -> & Hprun & _). cbn [bind].
  eexists. split; [reflexivity|]. cbn [run].
  rewrite Htrun, Hprun. unfold tf_greater. cbn [value].
  destruct (run m) as [u|e]; [|reflexivity]. cbn [bind].
  destruct (index_last (tf_shape u)) as [x|e]; [|reflexivity]. cbn [bind].
  destruct (x >? int32 width); reflexivity.
Qed.

(** X1. [trim] on a rank-3 tensor with extents that fit 32 bits and a
    width that is a non-negative 32-bit integer does what its docstring
    says: it returns a tensor whose third extent is the minimum of the
    input's and the width, holding the input's element at every index. *)
Theorem trim_min (n : node A) (v : tensor A) (b l w : nat) (width : Z) :
  run n = Ok v -> shape v = [b; l; w] -> int32_shape (shape v) = true ->
  consistent n v ->
  0 <= width < 2 ^ 31 ->
  exists out u,
    trim n width = Ok out /\
    run out = Ok u /\
    shape u = [b; l; Nat.min w (Z.to_nat width)] /\
    forall i j k, (i < b)%nat -> (j < l)%nat ->
      (k < Nat.min w (Z.to_nat width))%nat ->
      elem u [i; j; k] = elem v [i; j; k].
Proof.
  intros Hrun Hs _ Hc Hw.
  destruct (consistent_wf n v b l w Hc Hs) as [Hwf _].
  pose proof (trim_node n width Hwf) as Ht.
  rewrite (int32_small width) in Ht by lia.
  rewrite trim_builds_nonneg in Ht by lia.
  destruct Ht as (out & Hout & Hr). exists out.
  rewrite Hr, Hrun. cbn [bind]. rewrite (trim_run_rank3 v b l w width Hs).
  destruct (Z.leb_spec (Z.of_nat w) width) as [Hle|Hgt].
  - exists v. split; [exact Hout|]. split; [reflexivity|]. split.
    + rewrite Hs, Nat.min_l by lia. reflexivity.
    + intros; reflexivity.
  - rewrite (_trim_run_rank3 v b l w width Hs) by lia.
    eexists. split; [exact Hout|]. split; [reflexivity|]. split.
    + cbn [shape]. rewrite Nat.min_r by lia. reflexivity.
    + intros; reflexivity.
Qed.

(** X2. [pad] on a rank-3 tensor with extents that fit 32 bits and a
    width that is a non-negative 32-bit integer, when the width is not
    below the last extent or the last extent is not known while the graph
    is built, does what its docstring says: it returns a tensor whose
    third extent is the maximum of the input's and the width; below the
    input's last extent its elements are the input's, the others are
    zero. *)
Theorem pad_max (n : node A) (v : tensor A) (b l w : nat) (width : Z) :
  run n = Ok v -> shape v = [b; l; w] -> int32_shape (shape v) = true ->
  consistent n v ->
  0 <= width < 2 ^ 31 ->
  static_last n = None \/ Z.of_nat w <= width ->
  exists out u,
    pad n width = Ok out /\
    run out = Ok u /\
    shape u = [b; l; Nat.max w (Z.to_nat width)] /\
    (forall i j k, (i < b)%nat -> (j < l)%nat -> (k < w)%nat ->
       elem u [i; j; k] = elem v [i; j; k]) /\
    (forall i j k, (i < b)%nat -> (j < l)%nat ->
       (w <= k < Nat.max w (Z.to_nat width))%nat ->
       elem u [i; j; k] = d_zero).
Proof.
  intros Hrun Hs _ Hc Hw Hb.
  destruct (consistent_wf n v b l w Hc Hs) as [Hwf _].
  pose proof (pad_node n width Hwf) as Hp.
  rewrite (int32_small width) in Hp by lia.
  rewrite (pad_builds_consistent n v b l w width Hc Hs Hw Hb) in Hp.
  destruct Hp as (out & Hout & Hr). exists out.
  rewrite Hr, Hrun. cbn [bind]. rewrite (pad_run_rank3 v b l w width Hs).
  rewrite Z.geb_leb.
  destruct (Z.leb_spec width (Z.of_nat w)) as [Hle|Hgt].
  - exists v. split; [exact Hout|]. split; [reflexivity|]. split; [|split].
    + rewrite Hs, Nat.max_l by lia. reflexivity.
    + intros; reflexivity.
    + intros i j k _ _ Hk. rewrite Nat.max_l in Hk by lia. lia.
  - rewrite (_pad_run_rank3 v b l w width Hs) by lia.
    eexists. split; [exact Hout|]. split; [reflexivity|]. split; [|split].
    + cbn [shape]. rewrite Nat.max_r by lia. reflexivity.
    + intros i j k Hi Hj Hk. cbn [elem].
      rewrite pad_source_inside by assumption. reflexivity.
    + intros i j k Hi Hj Hk. cbn [elem].
      rewrite pad_source_outside by lia. reflexivity.
Qed.

(** X3. [fit] in closed form.  On a rank-3 tensor with extents that fit
    32 bits and a width that is a non-negative 32-bit integer, when the
    width is not below the last extent or the last extent is not known
    while the graph is built, [fit] returns a tensor of shape
    [[b; l; width]] whose element at [[i; j; k]] is the input's when [k]
    is below the input's last extent, and zero otherwise. *)
Theorem fit_elements (n : node A) (v : tensor A) (b l w : nat) (width : Z) :
  run n = Ok v -> shape v = [b; l; w] -> int32_shape (shape v) = true ->
  consistent n v ->
  0 <= width < 2 ^ 31 ->
  static_last n = None \/ Z.of_nat w <= width ->
  exists out u,
    fit n width = Ok out /\
    run out = Ok u /\
    shape u = [b; l; Z.to_nat width] /\
    forall i j k, (i < b)%nat -> (j < l)%nat -> (k < Z.to_nat width)%nat ->
      elem u [i; j; k] = if (k <? w)%nat then elem v [i; j; k] else d_zero.
Proof.
  intros Hrun Hs _ Hc Hw Hb.
  destruct (consistent_wf n v b l w Hc Hs) as [Hwf _].
  pose proof (fit_node n width Hwf) as Hf.
  rewrite (int32_small width) in Hf by lia.
  rewrite trim_builds_nonneg in Hf by lia.
  rewrite (pad_builds_consistent n v b l w width Hc Hs Hw Hb) in Hf.
  destruct Hf as (out & Hout & Hr & _). exists out.
  rewrite Hr, Hrun. cbn [bind]. rewrite (fit_run_rank3 v b l w width Hs).
  destruct (Z.eqb_spec (Z.of_nat w) width) as [He|Hne].
  - exists v. split; [exact Hout|]. split; [reflexivity|]. split.
    + rewrite Hs, <- He, Nat2Z.id. reflexivity.
    + intros i j k _ _ Hk. rewrite <- He, Nat2Z.id in Hk.
      rewrite (proj2 (Nat.ltb_lt k w) Hk). reflexivity.
  - rewrite Z.gtb_ltb. destruct (Z.ltb_spec width (Z.of_nat w)) as [Hlt|Hge].
    + rewrite (_trim_run_rank3 v b l w width Hs) by lia.
      eexists. split; [exact Hout|]. split; [reflexivity|].
      split; [reflexivity|].
      intros i j k _ _ Hk. cbn [elem offset_index Z.to_nat Nat.add].
      rewrite (proj2 (Nat.ltb_lt k w)) by lia. reflexivity.
    + rewrite (_pad_run_rank3 v b l w width Hs) by lia.
      eexists. split; [exact Hout|]. split; [reflexivity|].
      split; [reflexivity|].
      intros i j k Hi Hj Hk. cbn [elem].
      destruct (Nat.ltb_spec k w) as [Hkw|Hkw].
      * rewrite pad_source_inside by assumption. reflexivity.
      * rewrite pad_source_outside by lia. reflexivity.
Qed.

(** X10. [_fit] called directly agrees with [fit] on a rank-3 tensor,
    whatever the width: the two calls raise alike while the graph is
    built, and otherwise their nodes run alike, to arrays that hold the
    same numbers.  The equality test of [fit] only saves a [tf.pad] by
    zero. *)
Theorem _fit_agrees_with_fit (n : node A) (v : tensor A) (b l w : nat)
  (width : Z) :
  run n = Ok v -> shape v = [b; l; w] -> consistent n v ->
  same_call (_fit n width) (fit n width).
Proof.
  intros Hrun Hs Hc.
  destruct (consistent_wf n v b l w Hc Hs) as [Hwf _].
  pose proof (fit_node n width Hwf) as Hf.
  pose proof (_fit_node n width Hwf) as Hg.
  destruct (trim_builds (static n) (int32 width));
    [|rewrite Hf, Hg; exact I].
  destruct (pad_builds (static_last n) (int32 width));
    [|rewrite Hf, Hg; exact I].
  destruct Hf as (out & -> & Hr & _). destruct Hg as (out' & -> & Hr').
  cbn [same_call]. rewrite Hr, Hr', Hrun. cbn [bind].
  rewrite (index_last_rank3 v b l w Hs). cbn [bind].
  rewrite (fit_run_rank3 v b l w (int32 width) Hs).
  destruct (Z.eqb_spec (Z.of_nat w) (int32 width)) as [He|Hne];
    [|apply same_result_refl].
  rewrite Z.gtb_ltb, (proj2 (Z.ltb_ge _ _)) by lia.
  pose proof (int32_range width) as Hrange.
  rewrite (_pad_run_rank3 v b l w (int32 width) Hs) by lia.
  cbn [same_result]. split.
  - cbn [shape]. rewrite Hs, <- He, Nat2Z.id. reflexivity.
  - intros idx Hidx. cbn [shape] in Hidx.
    rewrite <- He, Nat2Z.id in Hidx.
    apply in_range3_inv in Hidx. destruct Hidx as (i & j & k & -> & Hi & Hj & Hk).
    cbn [elem]. rewrite pad_source_inside by assumption. reflexivity.
Qed.


(** X18. On a constant of the graph, of rank 3 and with extents that fit
    32 bits, and a width that is a non-negative 32-bit integer: [trim]
    always returns a node; [pad] and [fit] raise while the graph is built,
    in [tf.pad], exactly when the width is below the last extent. *)
Theorem constant_rejects_narrowing (t : tensor A) (b l w : nat) (width : Z) :
  shape t = [b; l; w] -> int32_shape (shape t) = true ->
  0 <= width < 2 ^ 31 ->
  (exists out, trim (constant t) width = Ok out) /\
  (pad (constant t) width = Err (InvalidArgument OpPad)
   <-> width < Z.of_nat w) /\
  (fit (constant t) width = Err (InvalidArgument OpPad)
   <-> width < Z.of_nat w).
Proof.
  intros Hs Hi Hw. rewrite Hs in Hi. apply int32_shape_rank3 in Hi.
  destruct (consistent_wf (constant t) t b l w (consistent_constant t) Hs)
    as [Hwf _].
  pose proof (trim_node (constant t) width Hwf) as Ht.
  pose proof (pad_node (constant t) width Hwf) as Hp.
  pose proof (fit_node (constant t) width Hwf) as Hf.
  rewrite (int32_small width) in Ht, Hp, Hf by lia.
  rewrite trim_builds_nonneg in Ht, Hf by lia.
  assert (Hl : static_last (constant t) = Some (Z.of_nat w)).
  { unfold static_last, constant. cbn [static]. rewrite Hs. reflexivity. }
  rewrite Hl in Hp, Hf. unfold pad_builds in Hp, Hf.
  rewrite (int32_small (width - Z.of_nat w)) in Hp, Hf by lia.
  split; [|split].
  - destruct Ht as (out & Hout & _). exists out. exact Hout.
  - destruct (Z.leb_spec 0 (width - Z.of_nat w)) as [Hge|Hlt].
    + destruct Hp as (out & Hout & _). rewrite Hout.
      split; [discriminate | lia].
    + split; [lia | intros _; exact Hp].
  - destruct (Z.leb_spec 0 (width - Z.of_nat w)) as [Hge|Hlt].
    + destruct Hf as (out & Hout & _). rewrite Hout.
      split; [discriminate | lia].
    + split; [lia | intros _; exact Hf].
Qed.

End FittingMore.

Lemma trim_min_witness :
  exists out u,
    trim (constant t_doc) 2 = Ok out /\ run out = Ok u /\
    shape u = [2; 3; 2]%nat.
Proof.
  destruct (trim_min (constant t_doc) t_doc 2 3 3 2 eq_refl eq_refl eq_refl
              (consistent_constant t_doc))
    as (out & u & Hout & Hu & Hsu & _); [lia|].
  exists out, u. auto.
Defined.

Lemma pad_max_witness :
  exists out u,
    pad (constant t_doc) 4 = Ok out /\ run out = Ok u /\
    shape u = [2; 3; 4]%nat.
Proof.
  destruct (pad_max (constant t_doc) t_doc 2 3 3 4 eq_refl eq_refl eq_refl
              (consistent_constant t_doc))
    as (out & u & Hout & Hu & Hsu & _); [lia | right; cbn; lia |].
  exists out, u. auto.
Defined.

Lemma fit_elements_witness :
  exists out u,
    fit (placeholder t_doc) 2 = Ok out /\ run out = Ok u /\
    shape u = [2; 3; 2]%nat /\
    elem u [1; 2; 1]%nat = 9.
Proof.
  destruct (fit_elements (placeholder t_doc) t_doc 2 3 3 2 eq_refl eq_refl
              eq_refl I)
    as (out & u & Hout & Hu & Hsu & He); [lia | left; reflexivity |].
  exists out, u. split; [exact Hout|]. split; [exact Hu|].
  split; [exact Hsu|]. rewrite (He 1%nat 2%nat 1%nat); [reflexivity | | |];
    cbn; lia.
Defined.

Lemma _fit_agrees_with_fit_witness :
  same_call (_fit (constant t_doc) 3) (fit (constant t_doc) 3).
Proof.
  apply (_fit_agrees_with_fit (constant t_doc) t_doc 2 3 3 3 eq_refl eq_refl
           (consistent_constant t_doc)).
Defined.

Lemma constant_rejects_narrowing_witness :
  fit (constant t_doc) 2 = Err (InvalidArgument OpPad).
Proof.
  destruct (constant_rejects_narrowing t_doc 2 3 3 2 eq_refl eq_refl)
    as (_ & _ & Hfit); [lia|].
  apply Hfit. cbn. lia.
Defined.

(** ** The softmax, row by row *)

Section SoftmaxFacts.

Context {A : Type} `{FloatDtype A}.

Lemma tf_reduce_sum_last (t : tensor A) (pre : list nat) (W : nat) :
  shape t = pre ++ [W] ->
  exists sums,
    tf_reduce_sum t (-1) true = Ok sums /\
    shape sums = pre ++ [1%nat] /\
    forall p i, length p = length pre -> elem sums (p ++ [i]) = row_sum t p W.
Proof.
  intros Hs. unfold tf_reduce_sum. rewrite Hs, normalize_axis_last.
  eexists. split; [reflexivity|]. split.
  - cbn [shape]. apply set_axis_snoc.
  - intros p i Hp. cbn [elem]. rewrite nth_snoc. unfold row_sum.
    f_equal. apply map_ext. intros j. rewrite <- Hp, set_axis_snoc. reflexivity.
Qed.

Lemma tf_binary_same_shape (op : tf_op) (f : A -> A -> A) (a b : tensor A) :
  shape a = shape b ->
  exists c,
    tf_binary op f a b = Ok c /\
    shape c = shape a /\
    forall idx, in_range (shape a) idx -> elem c idx = f (elem a idx) (elem b idx).
Proof.
  intros Hs. unfold tf_binary. rewrite <- Hs, broadcast_shape_same.
  eexists. split; [reflexivity|]. split; [reflexivity|].
  intros idx Hr. cbn [elem]. rewrite operand_index_in_range by exact Hr.
  reflexivity.
Qed.

Lemma tf_binary_keepdims (op : tf_op) (f : A -> A -> A) (a b : tensor A)
  (pre : list nat) (W : nat) :
  shape a = pre ++ [W] -> shape b = pre ++ [1%nat] ->
  exists c,
    tf_binary op f a b = Ok c /\
    shape c = pre ++ [W] /\
    forall p k, in_range pre p -> (k < W)%nat ->
      elem c (p ++ [k]) = f (elem a (p ++ [k])) (elem b (p ++ [O])).
Proof.
  intros Ha Hb. unfold tf_binary. rewrite Ha, Hb, broadcast_shape_keepdims.
  eexists. split; [reflexivity|]. split; [reflexivity|].
  intros p k Hp Hk. cbn [elem].
  rewrite operand_index_in_range by (apply in_range_snoc; assumption).
  rewrite operand_index_keepdims by exact Hp. reflexivity.
Qed.

(** The masked branch, row by row: the element at position [k] of row [p]
    is [exp(logits) * mask] there, divided by the sum of [exp(logits) * mask]
    over the row. *)
Lemma softmax_masked_rows (logits mask : tensor A) (name : string)
  (pre : list nat) (W : nat) :
  shape logits = pre ++ [W] -> shape mask = pre ++ [W] ->
  exists masked sums out,
    tf_mul (tf_exp logits) mask = Ok masked /\
    tf_reduce_sum masked (-1) true = Ok sums /\
    softmax logits (Some mask) name = Ok out /\
    shape out = pre ++ [W] /\
    (forall p k, in_range pre p -> (k < W)%nat ->
       elem masked (p ++ [k])
       = d_mul (d_exp (elem logits (p ++ [k]))) (elem mask (p ++ [k]))) /\
    (forall p, in_range pre p ->
       elem sums (p ++ [O])
       = sum_list (map (fun j => d_mul (d_exp (elem logits (p ++ [j])))
                                   (elem mask (p ++ [j]))) (seq 0 W))) /\
    (forall p k, in_range pre p -> (k < W)%nat ->
       elem out (p ++ [k]) = d_div (elem masked (p ++ [k])) (elem sums (p ++ [O]))).
Proof.
  intros Hl Hm.
  destruct (tf_binary_same_shape OpMul d_mul (tf_exp logits) mask)
    as (masked & Hmul & Hsm & Hem).
  { cbn [tf_exp shape]. congruence. }
  cbn [tf_exp shape] in Hsm, Hem. rewrite Hl in Hsm, Hem.
  destruct (tf_reduce_sum_last masked pre W Hsm) as (sums & Hsum & Hss & Hes).
  destruct (tf_binary_keepdims OpDiv d_div masked sums pre W Hsm Hss)
    as (out & Hdiv & Hso & Heo).
  exists masked, sums, out.
  assert (Hrow : forall p k, in_range pre p -> (k < W)%nat ->
            elem masked (p ++ [k])
            = d_mul (d_exp (elem logits (p ++ [k]))) (elem mask (p ++ [k]))).
  { intros p k Hp Hk. rewrite Hem by (apply in_range_snoc; assumption).
    reflexivity. }
  split; [exact Hmul|]. split; [exact Hsum|]. split.
  { unfold softmax, tf_variable_scope. unfold tf_mul in Hmul. unfold tf_mul.
    rewrite Hmul. cbn [bind]. rewrite Hsum. cbn [bind]. exact Hdiv. }
  split; [exact Hso|]. split; [exact Hrow|]. split.
  - intros p Hp. rewrite Hes by (apply in_range_length; exact Hp).
    unfold row_sum. f_equal. apply map_ext_in. intros j Hj.
    apply in_seq in Hj. apply Hrow; [exact Hp | lia].
  - exact Heo.
Qed.



End SoftmaxFacts.

(** ** Where the width-fitting family raises, and where the width wraps *)





(** ** What is validated *)

Section Validation.

Context {A : Type} `{Dtype A}.

Lemma unknown_shape_wf (n : node A) : static n = None -> static_wf n.
Proof. intros Hs. unfold static_wf. rewrite Hs. exact I. Qed.

(** On a node of unknown static shape nothing is rejected while the graph
    is built, and each operator runs to its input when its test holds. *)
Lemma unknown_shape_runs (n : node A) (v : tensor A) (w width : Z) :
  static n = None -> run n = Ok v -> index_last (tf_shape v) = Ok w ->
  (exists out, trim n width = Ok out /\
     (w <= int32 width -> run out = Ok v)) /\
  (exists out, pad n width = Ok out /\
     (int32 width <= w -> run out = Ok v)) /\
  (exists out, fit n width = Ok out /\
     (w = int32 width -> run out = Ok v)).
Proof.
  intros Hs Hrun Hw. pose proof (unknown_shape_wf n Hs) as Hwf.
  pose proof (trim_node n width Hwf) as Ht.
  pose proof (pad_node n width Hwf) as Hp.
  pose proof (fit_node n width Hwf) as Hf.
  unfold static_last, trim_builds, pad_builds in *. rewrite Hs in *.
  destruct Ht as (tout & Htout & Htr). destruct Hp as (pout & Hpout & Hpr).
  destruct Hf as (fout & Hfout & Hfr & _).
  split; [|split].
  - exists tout. split; [exact Htout|]. intros Hc.
    rewrite Htr, Hrun. cbn [bind]. unfold trim_run. rewrite Hw. cbn [bind].
    zbool. reflexivity.
  - exists pout. split; [exact Hpout|]. intros Hc.
    rewrite Hpr, Hrun. cbn [bind]. unfold pad_run. rewrite Hw. cbn [bind].
    zbool. reflexivity.
  - exists fout. split; [exact Hfout|]. intros Hc.
    rewrite Hfr, Hrun. cbn [bind]. unfold fit_run. rewrite Hw. cbn [bind].
    zbool. reflexivity.
Qed.

End Validation.

(** C5, as the code has it.  The operators validate nothing themselves.
    On a tensor whose shape is unknown while the graph is built, of any
    rank from 1, with extents that fit 32 bits and last extent [w]:
    [pad] to a 32-bit width, negative or not, returns a node, and the node
    runs to the tensor itself when [width <= w], so for every negative
    width; [trim] and [fit] to a non-negative 32-bit width return a node
    that runs to the tensor itself when [w <= width] and when [w = width].
    [softmax] with a mask whose shape is not that of the logits but
    broadcasts against it returns a tensor of the broadcast shape. *)
Theorem no_argument_validation {A : Type} `{Dtype A} {B : Type} `{FloatDtype B}
  (n : node A) (v : tensor A) (w width : Z) (logits mask : tensor B)
  (name : string) (s : list nat) :
  static n = None -> run n = Ok v -> int32_shape (shape v) = true ->
  index_last (tf_shape v) = Ok w ->
  - 2 ^ 31 <= width < 2 ^ 31 ->
  broadcast_shape (shape logits) (shape mask) = Some s -> s <> [] ->
  (exists out, pad n width = Ok out /\ (width <= w -> run out = Ok v)) /\
  (0 <= width ->
   (exists out, trim n width = Ok out /\ (w <= width -> run out = Ok v)) /\
   (exists out, fit n width = Ok out /\ (w = width -> run out = Ok v))) /\
  (exists out, softmax logits (Some mask) name = Ok out /\ shape out = s).
Proof.
  intros Hs Hrun _ Hw Hwidth Hb Hne.
  pose proof (unknown_shape_runs n v w width Hs Hrun Hw) as Hu.
  rewrite (int32_small width Hwidth) in Hu.
  destruct Hu as (Ht & Hp & Hf).
  split; [exact Hp|]. split; [intros _; split; [exact Ht | exact Hf]|].
  destruct (exists_last Hne) as (pre & W & ->).
  unfold softmax, tf_variable_scope, tf_mul, tf_binary.
  cbn [tf_exp shape]. rewrite Hb. cbn [bind].
  match goal with |- context [tf_reduce_sum ?m _ _] => set (masked := m) end.
  destruct (tf_reduce_sum_last masked pre W eq_refl) as (sums & Hsum & Hss & _).
  rewrite Hsum. cbn [bind].
  destruct (tf_binary_keepdims OpDiv d_div masked sums pre W eq_refl Hss)
    as (out & Hdiv & Hso & _).
  exists out. split; [exact Hdiv | exact Hso].
Qed.

(** Fail-fast validation does not hold: a negative width, a rank-2 tensor
    and a mask of another shape than the logits are all accepted. *)
Lemma validation_absent :
  (exists out, pad (placeholder t_doc) (-1) = Ok out /\ run out = Ok t_doc) /\
  (shape t_rank2 = [2; 3]%nat /\
   exists out, trim (placeholder t_rank2) 3 = Ok out /\ run out = Ok t_rank2) /\
  shape mask_row_f <> shape logits_f /\
  exists out,
    @softmax float float_dtype (float_float exp_series)
      logits_f (Some mask_row_f) "softmax"%string = Ok out /\
    shape out = shape logits_f.
Proof.
  split; [|split; [|split]].
  - eexists. split; reflexivity.
  - split; [reflexivity|]. eexists. split; reflexivity.
  - discriminate.
  - eexists. split; reflexivity.
Qed.

Lemma no_argument_validation_witness :
  (exists out, pad (placeholder t_rank2) (-5) = Ok out /\ run out = Ok t_rank2) /\
  (exists out,
     @softmax float float_dtype (float_float exp_series)
       logits_f (Some mask_row_f) "softmax"%string = Ok out /\
     shape out = [2; 3]%nat).
Proof.
  destruct (@no_argument_validation Z Z_dtype float float_dtype
              (float_float exp_series)
              (placeholder t_rank2) t_rank2 3 (-5) logits_f mask_row_f
              "softmax"%string [2; 3]%nat eq_refl eq_refl eq_refl eq_refl)
    as (Hpad & _ & Hsoft); [lia | reflexivity | discriminate |].
  destruct Hpad as (out & Hout & Hr).
  split; [|exact Hsoft].
  exists out. split; [exact Hout | apply Hr; lia].
Defined.

(** ** The masked softmax in binary64 arithmetic *)

Section FloatSoftmax.

Lemma Prim2SF_zero : Prim2SF 0%float = S754_zero false.
Proof. reflexivity. Qed.


Lemma mul_zero_zero_or_nan (x : float) : zero_or_nan (x * 0)%float.
Proof.
  unfold zero_or_nan. rewrite mul_spec, Prim2SF_zero.
  destruct (Prim2SF x) as [s|s| |s m e]; cbn; eauto.
Qed.










End FloatSoftmax.


Section FloatSoftmaxMore.

Lemma div_zero_or_nan_left (a b : float) :
  zero_or_nan a -> zero_or_nan (a / b)%float.
Proof.
  unfold zero_or_nan. rewrite div_spec.
  intros [[sa ->] | ->]; destruct (Prim2SF b) as [s|s| |s m e]; cbn; eauto.
Qed.

(** X15. In binary64 arithmetic, whatever the exponential function and
    whatever the logits, a position whose mask is 0.0 never holds a
    number other than zero: the result there is a zero or NaN. *)
Theorem softmax_masked_position_binary64 (libm_exp : float -> float)
  (logits mask : tensor float) (name : string) (pre p : list nat) (W k : nat) :
  shape logits = pre ++ [W] ->
  shape mask = shape logits ->
  in_range pre p -> (k < W)%nat ->
  elem mask (p ++ [k]) = 0%float ->
  exists out,
    @softmax float float_dtype (float_float libm_exp) logits (Some mask) name = Ok out /\
    zero_or_nan (elem out (p ++ [k])).
Proof.
  intros Hl Hm Hp Hk H0. rewrite Hl in Hm.
  destruct (@softmax_masked_rows float float_dtype (float_float libm_exp)
              logits mask name pre W Hl Hm)
    as (masked & sums & out & _ & _ & Hout & _ & Hem & _ & Heo).
  cbn [d_mul d_div d_exp float_float] in Hem, Heo.
  exists out. split; [exact Hout|].
  rewrite (Heo p k Hp Hk). apply div_zero_or_nan_left.
  rewrite (Hem p k Hp Hk), H0. apply mul_zero_zero_or_nan.
Qed.

End FloatSoftmaxMore.

Lemma softmax_masked_position_binary64_witness :
  exists out,
    @softmax float float_dtype (float_float exp_series)
      logits_f (Some mask_f) "softmax"%string = Ok out /\
    zero_or_nan (elem out [0; 1]%nat).
Proof.
  apply (softmax_masked_position_binary64 exp_series logits_f mask_f
           "softmax"%string [2%nat] [0%nat] 3 1).
  - reflexivity.
  - reflexivity.
  - repeat constructor.
  - lia.
  - reflexivity.
Defined.


(** ** The masked softmax: what holds of every input *)

Section FloatSoftmaxSpec.




End FloatSoftmaxSpec.




(** ** With a mask of ones and without a mask *)

Section OnesMask.

Context {A : Type} `{FloatDtype A}.


End OnesMask.


